(** * MetalCity: ShaderTypes.h

    A shallow embedding of [MetalCity/ShaderTypes.h], the header shared by the
    Metal shaders and the Swift/ObjC renderer.  The header is pure
    declaration: a conditional block that picks the integer type behind the
    enumerations, two [NS_ENUM] constant sets and the [Uniforms] record.

    The development has three layers:

    - [Layout]: the C data types the header mentions and the struct layout
      rule (fields in order, each at the next address its alignment allows);
    - [Cpp]: the text of a header as a list of items and its elaboration for
      a compilation target, as explicit state passing over an environment of
      macros, type names and emitted declarations, failing with [None] where
      the compiler would reject the text;
    - [ShaderTypes]: the header itself and the statements about it. *)

From Stdlib Require Import ZArith List String Bool Lia.
Import ListNotations.

Local Open Scope string_scope.
Local Open Scope list_scope.
Local Open Scope Z_scope.

(* ================================================================== *)
(** ** Data types and struct layout *)

Module Layout.

(** The scalar types the header reaches: [float], [metal::int32_t] / [int],
    and [long] on 64-bit hosts. *)
Inductive scalar : Type := Float32 | Int32 | Int64.

Definition scalar_bits (s : scalar) : Z :=
  match s with Float32 => 32 | Int32 => 32 | Int64 => 64 end.

Definition scalar_size (s : scalar) : Z := scalar_bits s / 8.

Definition is_float (s : scalar) : bool :=
  match s with Float32 => true | _ => false end.

Definition is_integer (s : scalar) : bool := negb (is_float s).

(** The types a member of the header's struct can have: a scalar, an
    [n]-lane vector, or a matrix of [cols] columns of [rows] lanes. *)
Inductive ctype : Type :=
| Scalar (s : scalar)
| Vector (s : scalar) (lanes : Z)
| Matrix (s : scalar) (cols rows : Z).

Definition elem_type (t : ctype) : scalar :=
  match t with Scalar s | Vector s _ | Matrix s _ _ => s end.

(** Number of scalar components a value of the type carries. *)
Definition components (t : ctype) : Z :=
  match t with
  | Scalar _ => 1
  | Vector _ n => n
  | Matrix _ c r => c * r
  end.

(** Bytes the components alone need, without any padding. *)
Definition packed_sizeof (t : ctype) : Z :=
  scalar_size (elem_type t) * components t.

(** Size and alignment of each type are the platform's: the header takes
    its vector and matrix types from [<simd/simd.h>] and says nothing about
    their storage.  The layout rule below is stated over any such table. *)
Record abi : Type := mkAbi {
  sizeof : ctype -> Z;
  alignof : ctype -> Z
}.

(** Modelled from the spec: the storage of the types of [<simd/simd.h>],
    which is not part of the repository ("whatever padding the target's
    vector/matrix math library imposes").  This is the table of Apple's simd
    library, the same on the host and in the Metal shading language: a
    three-lane vector is stored in the space of a four-lane one, a vector is
    aligned to its own size, and a matrix is a struct of column vectors
    ([matrix_float4x4] is [struct { simd_float4 columns[4]; }]).  It is the
    table at which the statements over an arbitrary [abi] are instantiated. *)
Definition storage_lanes (n : Z) : Z := if n =? 3 then 4 else n.

Definition simd_sizeof (t : ctype) : Z :=
  match t with
  | Scalar s => scalar_size s
  | Vector s n => scalar_size s * storage_lanes n
  | Matrix s c r => c * (scalar_size s * storage_lanes r)
  end.

Definition simd_alignof (t : ctype) : Z :=
  match t with
  | Scalar s => scalar_size s
  | Vector s n => scalar_size s * storage_lanes n
  | Matrix s _ r => scalar_size s * storage_lanes r
  end.

Definition apple_simd : abi := mkAbi simd_sizeof simd_alignof.

(** A struct member as written ([f_tyname f_name;]) with the type its name
    resolved to. *)
Record field : Type := mkField {
  f_name : string;
  f_tyname : string;
  f_type : ctype
}.

(** Where a member ends up. *)
Record slot : Type := mkSlot {
  s_name : string;
  s_offset : Z;
  s_size : Z
}.

(** Least multiple of [a] that is not below [n]. *)
Definition align_up (a n : Z) : Z := (n + a - 1) / a * a.

(** [first_aligned a pos o]: [o] is the first multiple of [a] at or after
    [pos], so the gap [o - pos] is padding that alignment requires and no
    more. *)
Definition first_aligned (a pos o : Z) : Prop :=
  pos <= o /\ (a | o) /\ forall m, pos <= m -> (a | m) -> o <= m.

(** Two byte ranges [[o1, o1+n1)] and [[o2, o2+n2)] share no byte. *)
Definition disjoint_ranges (o1 n1 o2 n2 : Z) : Prop :=
  o1 + n1 <= o2 \/ o2 + n2 <= o1.

Fixpoint find_slot (name : string) (ss : list slot) : option slot :=
  match ss with
  | [] => None
  | s :: rest => if String.eqb (s_name s) name then Some s else find_slot name rest
  end.

(** Layout of the members with no padding at all. *)
Fixpoint packed_place (pos : Z) (fs : list field) : list slot * Z :=
  match fs with
  | [] => ([], pos)
  | f :: rest =>
      let '(slots, fin) := packed_place (pos + packed_sizeof (f_type f)) rest in
      (mkSlot (f_name f) pos (packed_sizeof (f_type f)) :: slots, fin)
  end.

Definition packed_size (fs : list field) : Z := snd (packed_place 0 fs).

Definition packed_offset_of (fs : list field) (name : string) : option Z :=
  option_map s_offset (find_slot name (fst (packed_place 0 fs))).

Section StructLayout.

Variable A : abi.

(** Every member's type has a positive alignment, and no type is stored in
    less than its components need. *)
Definition aligned (fs : list field) : Prop :=
  Forall (fun f => 0 < alignof A (f_type f)) fs.

Definition roomy (fs : list field) : Prop :=
  Forall (fun f => packed_sizeof (f_type f) <= sizeof A (f_type f)) fs.

(** Members are placed in declaration order, each at the first address at
    or after the end of the previous one that its alignment allows.  The
    second component is the end of the last member. *)
Fixpoint place (pos : Z) (fs : list field) : list slot * Z :=
  match fs with
  | [] => ([], pos)
  | f :: rest =>
      let off := align_up (alignof A (f_type f)) pos in
      let '(slots, fin) := place (off + sizeof A (f_type f)) rest in
      (mkSlot (f_name f) off (sizeof A (f_type f)) :: slots, fin)
  end.

Definition slots_of (fs : list field) : list slot := fst (place 0 fs).

Definition struct_align (fs : list field) : Z :=
  fold_right (fun f a => Z.max (alignof A (f_type f)) a) 1 fs.

(** [sizeof] of the struct: the end of the last member rounded up to the
    struct's alignment. *)
Definition struct_size (fs : list field) : Z :=
  align_up (struct_align fs) (snd (place 0 fs)).

(** [offsetof(struct, name)]. *)
Definition offset_of (fs : list field) (name : string) : option Z :=
  option_map s_offset (find_slot name (slots_of fs)).

(** The bytes of a member's slot that its components do not use: start
    and length of the padding inside the slot. *)
Definition tail_padding (fs : list field) (name : string) : option (Z * Z) :=
  match find (fun f => String.eqb (f_name f) name) fs,
        find_slot name (slots_of fs) with
  | Some f, Some s =>
      Some (s_offset s + packed_sizeof (f_type f),
            s_size s - packed_sizeof (f_type f))
  | _, _ => None
  end.

(** *** Sequential layout, stated as a relation

    [sequential pos fs ss fin]: the slots [ss] hold the members [fs] in
    order from [pos] on, each with its own size at the first address its
    alignment allows, and the last one ends at [fin]. *)
Inductive sequential : Z -> list field -> list slot -> Z -> Prop :=
| seq_nil : forall pos, sequential pos [] [] pos
| seq_cons : forall pos f fs o ss fin,
    first_aligned (alignof A (f_type f)) pos o ->
    sequential (o + sizeof A (f_type f)) fs ss fin ->
    sequential pos (f :: fs)
      (mkSlot (f_name f) o (sizeof A (f_type f)) :: ss) fin.

(** A struct laid out sequentially from offset 0 whose size is the end of
    its last member rounded up to its alignment. *)
Definition sequential_struct (fs : list field) (ss : list slot) (size : Z) : Prop :=
  exists fin, sequential 0 fs ss fin /\ first_aligned (struct_align fs) fin size.

End StructLayout.

End Layout.

(* ================================================================== *)
(** ** Header text and its elaboration *)

Module Cpp.
Import Layout.

(** The two sides that include the header: the Metal shader compiler, and
    the host compiler (Swift/ObjC through the bridging header) under one of
    the two Apple data models. *)
Inductive data_model : Type := LP64 | ILP32.
Inductive target : Type := Metal | Host (dm : data_model).

(** What a [#define] binds.  [EnumMacro] is the function-like macro
    [(_type, _name)  |->  enum _name : _type _name; enum _name : _type]. *)
Inductive macro_def : Type := ObjectLike | EnumMacro.

(** One construct of header text.  [FunctionDef] and [GlobalVar] are what a
    header with behaviour or state would contain. *)
#[warnings="-register-all"]
Inductive item : Type :=
| IfNDef (macro : string) (body : list item)
| IfDef (macro : string) (body orelse : list item)
| Define (macro : string) (def : macro_def)
| Import (path : string)
| Include (path : string)
| Typedef (base alias : string)
| TypedefEnum (macro backing name : string) (members : list (string * Z))
| TypedefStruct (members : list (string * string)) (name : string)
| FunctionDef (name : string)
| GlobalVar (ty name : string).

(** A declaration the header's own text introduces, after elaboration. *)
Inductive decl : Type :=
| DAlias (name base : string) (ty : ctype)
| DEnum (name backing : string) (rep : scalar) (members : list (string * Z))
| DStruct (name : string) (fields : list field)
| DFunction (name : string)
| DVariable (name : string) (ty : ctype).

Record env : Type := mkEnv {
  macros : list (string * macro_def);
  types : list (string * ctype);
  decls : list decl
}.

Fixpoint lookup {A : Type} (k : string) (l : list (string * A)) : option A :=
  match l with
  | [] => None
  | (k', v) :: rest => if String.eqb k' k then Some v else lookup k rest
  end.

Definition defined (m : string) (e : env) : bool :=
  match lookup m (macros e) with Some _ => true | None => false end.

Definition add_macro (m : string) (d : macro_def) (e : env) : env :=
  mkEnv ((m, d) :: macros e) (types e) (decls e).

Definition add_type (n : string) (t : ctype) (e : env) : env :=
  mkEnv (macros e) ((n, t) :: types e) (decls e).

Definition emit (d : decl) (e : env) : env :=
  mkEnv (macros e) (types e) (decls e ++ [d]).

(** An integer constant fits a signed integer type of the scalar's width. *)
Definition fits (rep : scalar) (v : Z) : bool :=
  (- 2 ^ (scalar_bits rep - 1) <=? v) && (v <? 2 ^ (scalar_bits rep - 1)).

(** Two's-complement reading of [v] at the scalar's width. *)
Definition wrap (rep : scalar) (v : Z) : Z :=
  (v + 2 ^ (scalar_bits rep - 1)) mod 2 ^ scalar_bits rep - 2 ^ (scalar_bits rep - 1).

Fixpoint resolve_fields (tys : list (string * ctype)) (ms : list (string * string))
  : option (list field) :=
  match ms with
  | [] => Some []
  | (ty, name) :: rest =>
      match lookup ty tys, resolve_fields tys rest with
      | Some t, Some fs => Some (mkField name ty t :: fs)
      | _, _ => None
      end
  end.

(** Modelled from the spec: the declarations the header takes from the
    platform headers [<Foundation/Foundation.h>] and [<simd/simd.h>], which
    are not part of the repository.  [Foundation.h] brings [NS_ENUM] (an
    enumeration with a fixed backing type, as the header's own Metal-side
    definition) and [NSInteger] ([long] under [__LP64__], [int] otherwise);
    [simd/simd.h] brings [matrix_float4x4], a 4x4 matrix of 32-bit floats,
    and [vector_float3], a 3-component vector of 32-bit floats. *)
Definition provide (path : string) (e : env) : option env :=
  if String.eqb path "Foundation/Foundation.h" then
    match lookup (if defined "__LP64__" e then "long" else "int") (types e) with
    | Some t => Some (add_macro "NS_ENUM" EnumMacro (add_type "NSInteger" t e))
    | None => None
    end
  else if String.eqb path "simd/simd.h" then
    Some (add_type "matrix_float4x4" (Matrix Float32 4 4)
            (add_type "vector_float3" (Vector Float32 3) e))
  else None.

(** Elaboration of one item; [None] where the compiler rejects the text
    (unknown type or macro, constant out of range for the backing type).
    A name bound again takes the place of the earlier binding: conflicts
    with declarations made before the header are not diagnosed here. *)
Fixpoint exec (i : item) (e : env) {struct i} : option env :=
  let run :=
    fix run (l : list item) (e : env) {struct l} : option env :=
      match l with
      | [] => Some e
      | x :: rest =>
          match exec x e with
          | Some e' => run rest e'
          | None => None
          end
      end in
  match i with
  | IfNDef m body => if defined m e then Some e else run body e
  | IfDef m body orelse => if defined m e then run body e else run orelse e
  | Define m d => Some (add_macro m d e)
  | Import path | Include path => provide path e
  | Typedef base alias =>
      match lookup base (types e) with
      | Some t => Some (emit (DAlias alias base t) (add_type alias t e))
      | None => None
      end
  | TypedefEnum m backing name members =>
      match lookup m (macros e), lookup backing (types e) with
      | Some EnumMacro, Some (Scalar rep) =>
          if is_integer rep && forallb (fun mv => fits rep (snd mv)) members
          then Some (emit (DEnum name backing rep members)
                       (add_type name (Scalar rep) e))
          else None
      | _, _ => None
      end
  | TypedefStruct members name =>
      match resolve_fields (types e) members with
      | Some fs => Some (emit (DStruct name fs) e)
      | None => None
      end
  | FunctionDef name => Some (emit (DFunction name) e)
  | GlobalVar ty name =>
      match lookup ty (types e) with
      | Some t => Some (emit (DVariable name t) e)
      | None => None
      end
  end.

Fixpoint exec_all (l : list item) (e : env) : option env :=
  match l with
  | [] => Some e
  | x :: rest =>
      match exec x e with
      | Some e' => exec_all rest e'
      | None => None
      end
  end.

(** Modelled from the spec: the environment a translation unit starts in,
    which the compilers and not the repository define.  The Metal compiler
    predefines [__METAL_VERSION__] and a shader has [metal::int32_t] from
    the Metal standard library; a host compiler predefines [__LP64__] under
    the 64-bit data model, where [long] has 64 bits. *)
Definition predefined (t : target) : list (string * macro_def) :=
  match t with
  | Metal => [("__METAL_VERSION__", ObjectLike)]
  | Host LP64 => [("__LP64__", ObjectLike)]
  | Host ILP32 => []
  end.

(** Modelled from the spec: the scalar types each compiler has built in,
    by the names the header and [Foundation.h] use for them. *)
Definition builtin_types (t : target) : list (string * ctype) :=
  match t with
  | Metal => [("float", Scalar Float32); ("metal::int32_t", Scalar Int32)]
  | Host LP64 =>
      [("float", Scalar Float32); ("int", Scalar Int32); ("long", Scalar Int64)]
  | Host ILP32 =>
      [("float", Scalar Float32); ("int", Scalar Int32); ("long", Scalar Int32)]
  end.

Definition init (t : target) : env := mkEnv (predefined t) (builtin_types t) [].

Definition elaborate (t : target) (src : list item) : option env :=
  exec_all src (init t).

(** The declarations a header contributes on a target. *)
Definition compile (t : target) (src : list item) : option (list decl) :=
  option_map decls (elaborate t src).

(** *** Views of the declarations *)

Definition decl_name (d : decl) : string :=
  match d with
  | DAlias n _ _ | DEnum n _ _ _ | DStruct n _ | DFunction n | DVariable n _ => n
  end.

Inductive kind : Type := KAlias | KConstants | KRecord | KFunction | KVariable.

Definition decl_kind (d : decl) : kind :=
  match d with
  | DAlias _ _ _ => KAlias
  | DEnum _ _ _ _ => KConstants
  | DStruct _ _ => KRecord
  | DFunction _ => KFunction
  | DVariable _ _ => KVariable
  end.

Definition is_operation (d : decl) : bool :=
  match d with DFunction _ => true | _ => false end.

Definition is_state (d : decl) : bool :=
  match d with DVariable _ _ => true | _ => false end.

Fixpoint find_enum (name : string) (ds : list decl)
  : option (string * scalar * list (string * Z)) :=
  match ds with
  | [] => None
  | DEnum n b rep ms :: rest =>
      if String.eqb n name then Some (b, rep, ms) else find_enum name rest
  | _ :: rest => find_enum name rest
  end.

Fixpoint find_struct (name : string) (ds : list decl) : option (list field) :=
  match ds with
  | [] => None
  | DStruct n fs :: rest =>
      if String.eqb n name then Some fs else find_struct name rest
  | _ :: rest => find_struct name rest
  end.

(** The member identifier without the name of its enumeration in front:
    [BufferIndexVertices] is [Vertices] of [BufferIndex]. *)
Definition short_name (enum member : string) : string :=
  if String.prefix enum member
  then String.substring (String.length enum)
         (String.length member - String.length enum) member
  else member.

Definition short_members (enum : string) (ms : list (string * Z))
  : list (string * Z) :=
  map (fun mv => (short_name enum (fst mv), snd mv)) ms.

(** The part of a declaration that is fixed by the text alone: names,
    constants and written type names, without what the names resolve to. *)
Inductive shape : Type :=
| ShEnum (name : string) (members : list (string * Z))
| ShStruct (name : string) (members : list (string * string)).

Definition shape_of (d : decl) : list shape :=
  match d with
  | DEnum n _ _ ms => [ShEnum n ms]
  | DStruct n fs => [ShStruct n (map (fun f => (f_tyname f, f_name f)) fs)]
  | _ => []
  end.

Definition shapes (ds : list decl) : list shape := flat_map shape_of ds.

(** The enumerations and structs written outside every conditional block,
    read off the text. *)
Definition written_shape (i : item) : list shape :=
  match i with
  | TypedefEnum _ _ n ms => [ShEnum n ms]
  | TypedefStruct ms n => [ShStruct n ms]
  | _ => []
  end.

Definition written_shapes (l : list item) : list shape := flat_map written_shape l.

(** An item that emits no enumeration and no struct whichever branch is
    taken. *)
Fixpoint shapeless (i : item) : bool :=
  match i with
  | IfNDef _ body => forallb shapeless body
  | IfDef _ body orelse => forallb shapeless body && forallb shapeless orelse
  | TypedefEnum _ _ _ _ | TypedefStruct _ _ => false
  | _ => true
  end.

(** Enumerations and structs appear only outside conditional blocks. *)
Definition unconditional (i : item) : bool :=
  match i with
  | IfNDef _ _ | IfDef _ _ _ => shapeless i
  | _ => true
  end.

(** Every item of the text, conditional branches included. *)
Fixpoint flatten (i : item) : list item :=
  i :: match i with
       | IfNDef _ body => flat_map flatten body
       | IfDef _ body orelse => flat_map flatten body ++ flat_map flatten orelse
       | _ => []
       end.

Definition is_behaviour (i : item) : bool :=
  match i with FunctionDef _ | GlobalVar _ _ => true | _ => false end.

End Cpp.

(* ================================================================== *)
(** ** The header *)

Module ShaderTypes.
Import Layout Cpp.

(** The text of [ShaderTypes.h], construct by construct. *)
Definition ShaderTypes_h : list item :=
  [ IfNDef "ShaderTypes_h"
      [ Define "ShaderTypes_h" ObjectLike;
        IfDef "__METAL_VERSION__"
          [ Define "NS_ENUM" EnumMacro;
            Typedef "metal::int32_t" "EnumBackingType" ]
          [ Import "Foundation/Foundation.h";
            Typedef "NSInteger" "EnumBackingType" ];
        Include "simd/simd.h";
        TypedefEnum "NS_ENUM" "EnumBackingType" "BufferIndex"
          [ ("BufferIndexVertices", 0);
            ("BufferIndexUniforms", 1) ];
        TypedefEnum "NS_ENUM" "EnumBackingType" "VertexAttribute"
          [ ("VertexAttributePosition", 0);
            ("VertexAttributeNormal", 1);
            ("VertexAttributeColor", 2) ];
        TypedefStruct
          [ ("matrix_float4x4", "projectionMatrix");
            ("matrix_float4x4", "viewMatrix");
            ("vector_float3", "lightDirection");
            ("float", "ambientIntensity") ]
          "Uniforms" ] ].


(** The header's declarations on a target; empty if it did not compile. *)
Definition declarations (t : target) : list decl :=
  match compile t ShaderTypes_h with
  | Some ds => ds
  | None => []
  end.

(** A constant set with its members under their short names. *)
Definition constant_set (t : target) (name : string) : option (list (string * Z)) :=
  match find_enum name (declarations t) with
  | Some (_, _, ms) => Some (short_members name ms)
  | None => None
  end.

(** Written name and resolved type of the integer behind a constant set. *)
Definition backing_of (t : target) (name : string) : option (string * scalar) :=
  match find_enum name (declarations t) with
  | Some (b, rep, _) =>
      match find (fun d => match d with
                           | DAlias n _ _ => String.eqb n b
                           | _ => false
                           end) (declarations t) with
      | Some (DAlias _ base _) => Some (base, rep)
      | _ => Some (b, rep)
      end
  | None => None
  end.

(** The value an identifier denotes on a target: its constant read at the
    width of the backing type. *)
Definition denotes (t : target) (enum member : string) : option Z :=
  match find_enum enum (declarations t) with
  | Some (_, rep, ms) => option_map (wrap rep) (lookup member ms)
  | None => None
  end.

Definition Uniforms (t : target) : list field :=
  match find_struct "Uniforms" (declarations t) with
  | Some fs => fs
  | None => []
  end.

(** All constants the header defines: enumeration, identifier, constant. *)
Definition enum_constants (t : target) : list (string * string * Z) :=
  flat_map (fun d => match d with
                     | DEnum n _ _ ms => map (fun mv => (n, fst mv, snd mv)) ms
                     | _ => []
                     end)
    (declarations t).

(** The names of the two constant sets and of the record. *)
Definition data_names : list string := ["BufferIndex"; "VertexAttribute"; "Uniforms"].

End ShaderTypes.

(* ================================================================== *)
(** ** What a header shows to the file that includes it *)

Module Visibility.
Import Layout Cpp ShaderTypes.

(** One thing an included header leaves visible: a macro its own text
    defines, a declaration its own text makes, or the content of a platform
    header it pulls in, which is named and not looked into. *)
Inductive visible : Type :=
| VMacro (name : string) (def : macro_def)
| VDecl (d : decl)
| VPlatform (path : string).

(** What elaborating one item shows, following the branches [exec] takes.
    The declaration an item makes is read off [exec]: it is what the item
    appends to the declarations. *)
Fixpoint trace (i : item) (e : env) {struct i} : list visible :=
  let run :=
    fix run (l : list item) (e : env) {struct l} : list visible :=
      match l with
      | [] => []
      | x :: rest =>
          trace x e ++
          match exec x e with
          | Some e' => run rest e'
          | None => []
          end
      end in
  match i with
  | IfNDef m body => if defined m e then [] else run body e
  | IfDef m body orelse => if defined m e then run body e else run orelse e
  | Define m d => [VMacro m d]
  | Import path | Include path => [VPlatform path]
  | _ =>
      match exec i e with
      | Some e' => map VDecl (skipn (List.length (decls e)) (decls e'))
      | None => []
      end
  end.

Fixpoint trace_all (l : list item) (e : env) : list visible :=
  match l with
  | [] => []
  | x :: rest =>
      trace x e ++
      match exec x e with
      | Some e' => trace_all rest e'
      | None => []
      end
  end.

Definition decls_of (vs : list visible) : list decl :=
  flat_map (fun v => match v with VDecl d => [d] | _ => [] end) vs.

Definition macros_of (vs : list visible) : list string :=
  flat_map (fun v => match v with VMacro m _ => [m] | _ => [] end) vs.

(** A visible thing by name and kind. *)
Inductive entry : Type :=
| EMacro (name : string)
| EDecl (name : string) (k : kind)
| EPlatform (path : string).

Definition describe (v : visible) : entry :=
  match v with
  | VMacro m _ => EMacro m
  | VDecl d => EDecl (decl_name d) (decl_kind d)
  | VPlatform p => EPlatform p
  end.

(** Everything [ShaderTypes.h] shows on a target, in the order of its
    text. *)
Definition visible_content (t : target) : list visible :=
  trace_all ShaderTypes_h (init t).

(** The macro names an includer finds defined after the header. *)
Definition macros_after (t : target) : list string :=
  match elaborate t ShaderTypes_h with
  | Some e => map fst (macros e)
  | None => []
  end.

End Visibility.

(* ================================================================== *)
(** ** Further notions for the inclusion and layout properties *)

Module Notions.
Import Layout Cpp.

(** [extends e e']: everything a translation unit had in [e] is still there
    in [e']: every macro is still defined, every type name still known, and
    the declarations of [e] are the first declarations of [e'], in order. *)
Definition extends (e e' : env) : Prop :=
  (forall m, defined m e = true -> defined m e' = true) /\
  (forall n, lookup n (types e) <> None -> lookup n (types e') <> None) /\
  (exists ds, decls e' = decls e ++ ds).

(** [laid_out lo hi ss]: the slots follow one another inside [[lo, hi)],
    each starting at or after the end of the one before. *)
Fixpoint laid_out (lo hi : Z) (ss : list slot) : Prop :=
  match ss with
  | [] => lo <= hi
  | s :: rest =>
      lo <= s_offset s /\ 0 <= s_size s /\
      laid_out (s_offset s + s_size s) hi rest
  end.

(** No member's type has a negative size. *)
Definition sized (A : abi) (fs : list field) : Prop :=
  Forall (fun f => 0 <= sizeof A (f_type f)) fs.

(** Where the members of the [k]-th element of an array of the struct
    start: each member paired with its address relative to the array. *)
Definition element_slots (A : abi) (fs : list field) (k : Z) : list (field * Z) :=
  map (fun p => (fst p, k * struct_size A fs + s_offset (snd p)))
      (combine fs (slots_of A fs)).

Definition slots_disjoint (s1 s2 : slot) : Prop :=
  disjoint_ranges (s_offset s1) (s_size s1) (s_offset s2) (s_size s2).


End Notions.

(* ================================================================== *)
(** ** Facts about the layout rule *)

Module LayoutFacts.
Import Layout.

Lemma align_up_ge (a n : Z) : 0 < a -> n <= align_up a n.
Proof.
  intros Ha. unfold align_up.
  pose proof (Z.div_mod (n + a - 1) a ltac:(lia)) as E.
  pose proof (Z.mod_pos_bound (n + a - 1) a Ha) as B.
  lia.
Qed.

Lemma align_up_lt (a n : Z) : 0 < a -> align_up a n < n + a.
Proof.
  intros Ha. unfold align_up.
  pose proof (Z.div_mod (n + a - 1) a ltac:(lia)) as E.
  pose proof (Z.mod_pos_bound (n + a - 1) a Ha) as B.
  lia.
Qed.

Lemma align_up_divide (a n : Z) : (a | align_up a n).
Proof. unfold align_up. exists ((n + a - 1) / a). reflexivity. Qed.

Lemma align_up_least (a n m : Z) :
  0 < a -> n <= m -> (a | m) -> align_up a n <= m.
Proof.
  intros Ha Hnm [k ->].
  pose proof (align_up_lt a n Ha) as L.
  destruct (align_up_divide a n) as [q Hq]. rewrite Hq in *.
  assert (q < k + 1) by nia. nia.
Qed.

Lemma align_up_first (a n : Z) : 0 < a -> first_aligned a n (align_up a n).
Proof.
  intros Ha. repeat split.
  - now apply align_up_ge.
  - apply align_up_divide.
  - intros m Hm Hd. now apply align_up_least.
Qed.

Lemma first_aligned_unique (a pos o o' : Z) :
  first_aligned a pos o -> first_aligned a pos o' -> o = o'.
Proof.
  intros (H1 & H2 & H3) (H1' & H2' & H3').
  pose proof (H3 o' H1' H2'). pose proof (H3' o H1 H2). lia.
Qed.

(** An address that is already aligned is kept. *)
Lemma align_up_fixed (a n : Z) : 0 < a -> (a | n) -> align_up a n = n.
Proof.
  intros Ha Hd.
  pose proof (align_up_ge a n Ha).
  pose proof (align_up_least a n n Ha ltac:(lia) Hd). lia.
Qed.

Section StructLayoutFacts.

Variable A : abi.

(** The executable rule produces a sequential layout. *)
Lemma place_sequential (fs : list field) :
  aligned A fs ->
  forall pos, sequential A pos fs (fst (place A pos fs)) (snd (place A pos fs)).
Proof.
  induction 1 as [| f fs Hf _ IH]; intros pos; simpl.
  - constructor.
  - specialize (IH (align_up (alignof A (f_type f)) pos + sizeof A (f_type f))).
    destruct (place A (align_up (alignof A (f_type f)) pos + sizeof A (f_type f)) fs)
      as [ss fin]; simpl in *.
    constructor; [| exact IH].
    now apply align_up_first.
Qed.

(** It is the only one. *)
Lemma sequential_place (pos : Z) (fs : list field) (ss : list slot) (fin : Z) :
  aligned A fs ->
  sequential A pos fs ss fin -> place A pos fs = (ss, fin).
Proof.
  intros Hwf H. induction H as [pos | pos f fs o ss fin Ho _ IH]; simpl.
  - reflexivity.
  - inversion Hwf as [| ? ? Hf Hfs]; subst.
    assert (align_up (alignof A (f_type f)) pos = o) as ->.
    { eapply first_aligned_unique; [| exact Ho]. now apply align_up_first. }
    now rewrite (IH Hfs).
Qed.

(** The layout depends on the table only through the members' types. *)
Lemma place_ext (B : abi) (fs : list field) :
  Forall (fun f => sizeof A (f_type f) = sizeof B (f_type f) /\
                   alignof A (f_type f) = alignof B (f_type f)) fs ->
  forall pos, place A pos fs = place B pos fs.
Proof.
  induction 1 as [| f fs [Hs Ha] _ IH]; intros pos; simpl.
  - reflexivity.
  - now rewrite Hs, Ha, IH.
Qed.

Lemma struct_align_ext (B : abi) (fs : list field) :
  Forall (fun f => sizeof A (f_type f) = sizeof B (f_type f) /\
                   alignof A (f_type f) = alignof B (f_type f)) fs ->
  struct_align A fs = struct_align B fs.
Proof.
  induction 1 as [| f fs [Hs Ha] _ IH]; simpl.
  - reflexivity.
  - now rewrite Ha, IH.
Qed.

Lemma struct_align_pos (fs : list field) : 0 < struct_align A fs.
Proof. induction fs; simpl; lia. Qed.

Lemma struct_layout_sequential (fs : list field) :
  aligned A fs ->
  sequential_struct A fs (slots_of A fs) (struct_size A fs).
Proof.
  intros Hwf. exists (snd (place A 0 fs)). split.
  - now apply place_sequential.
  - apply align_up_first, struct_align_pos.
Qed.

(** Padding never shrinks a struct below its packed size. *)
Lemma packed_place_le (fs : list field) :
  aligned A fs -> roomy A fs ->
  forall p q, p <= q -> snd (packed_place p fs) <= snd (place A q fs).
Proof.
  induction 1 as [| f fs Hf _ IH]; intros Hr p q Hpq; simpl.
  - exact Hpq.
  - inversion Hr as [| ? ? Hrf Hrfs]; subst.
    pose proof (align_up_ge (alignof A (f_type f)) q Hf).
    specialize (IH Hrfs (p + packed_sizeof (f_type f))
                   (align_up (alignof A (f_type f)) q + sizeof A (f_type f))
                   ltac:(lia)).
    destruct (packed_place (p + packed_sizeof (f_type f)) fs).
    destruct (place A (align_up (alignof A (f_type f)) q + sizeof A (f_type f)) fs).
    exact IH.
Qed.

Lemma packed_size_le (fs : list field) :
  aligned A fs -> roomy A fs -> packed_size fs <= struct_size A fs.
Proof.
  intros Hwf Hr. unfold packed_size, struct_size.
  pose proof (packed_place_le fs Hwf Hr 0 0 ltac:(lia)).
  pose proof (align_up_ge (struct_align A fs) (snd (place A 0 fs))
                (struct_align_pos fs)).
  lia.
Qed.

End StructLayoutFacts.

End LayoutFacts.

(* ================================================================== *)
(** ** Facts about elaboration *)

Module CppFacts.
Import Layout Cpp.

(** Induction on items that reaches into the branches of conditionals. *)
Lemma item_nested_ind (P : item -> Prop) :
  (forall m body, Forall P body -> P (IfNDef m body)) ->
  (forall m body orelse, Forall P body -> Forall P orelse -> P (IfDef m body orelse)) ->
  (forall m d, P (Define m d)) ->
  (forall p, P (Import p)) ->
  (forall p, P (Include p)) ->
  (forall b a, P (Typedef b a)) ->
  (forall m b n ms, P (TypedefEnum m b n ms)) ->
  (forall ms n, P (TypedefStruct ms n)) ->
  (forall n, P (FunctionDef n)) ->
  (forall t n, P (GlobalVar t n)) ->
  forall i, P i.
Proof.
  intros Hn Hd H1 H2 H3 H4 H5 H6 H7 H8.
  fix IH 1. intros [m body | m body orelse | | | | | | | | ].
  - apply Hn. induction body as [| x xs IHxs]; constructor; [apply IH | exact IHxs].
  - apply Hd.
    + induction body as [| x xs IHxs]; constructor; [apply IH | exact IHxs].
    + induction orelse as [| x xs IHxs]; constructor; [apply IH | exact IHxs].
  - apply H1.
  - apply H2.
  - apply H3.
  - apply H4.
  - apply H5.
  - apply H6.
  - apply H7.
  - apply H8.
Qed.

Lemma exec_IfNDef (m : string) (body : list item) (e : env) :
  exec (IfNDef m body) e = if defined m e then Some e else exec_all body e.
Proof. reflexivity. Qed.

Lemma exec_IfDef (m : string) (body orelse : list item) (e : env) :
  exec (IfDef m body orelse) e =
  if defined m e then exec_all body e else exec_all orelse e.
Proof. reflexivity. Qed.

Lemma exec_all_app (l1 l2 : list item) (e : env) :
  exec_all (l1 ++ l2) e =
  match exec_all l1 e with Some e' => exec_all l2 e' | None => None end.
Proof.
  revert e. induction l1 as [| x xs IH]; intros e; simpl.
  - reflexivity.
  - destruct (exec x e); [apply IH | reflexivity].
Qed.

Lemma provide_decls (p : string) (e e' : env) :
  provide p e = Some e' -> decls e' = decls e.
Proof.
  unfold provide. intros H.
  destruct (String.eqb p "Foundation/Foundation.h").
  - destruct (lookup _ (types e)); inversion H; reflexivity.
  - destruct (String.eqb p "simd/simd.h"); inversion H; reflexivity.
Qed.

(** Resolving the member types keeps the members as written. *)
Lemma resolve_fields_written tys ms fs :
  resolve_fields tys ms = Some fs ->
  map (fun f => (f_tyname f, f_name f)) fs = ms.
Proof.
  revert fs. induction ms as [| [ty name] rest IH]; intros fs H; simpl in H.
  - inversion H. reflexivity.
  - destruct (lookup ty tys); [| discriminate].
    destruct (resolve_fields tys rest) as [fs' |]; [| discriminate].
    inversion H; subst. simpl. now rewrite (IH fs' eq_refl).
Qed.

Lemma shapes_app (a b : list decl) : shapes (a ++ b) = shapes a ++ shapes b.
Proof. apply flat_map_app. Qed.

Lemma shapes_emit (d : decl) (e : env) :
  shapes (decls (emit d e)) = shapes (decls e) ++ shape_of d.
Proof. simpl. rewrite shapes_app. simpl. now rewrite app_nil_r. Qed.

(** Whatever branch is taken, a block without enumerations and structs adds
    none to the declarations. *)
Lemma exec_shapeless (i : item) :
  shapeless i = true ->
  forall e e', exec i e = Some e' -> shapes (decls e') = shapes (decls e).
Proof.
  induction i as [m body IH | m body orelse IHb IHo | | | | | | | | ]
    using item_nested_ind; intros Hs e e' H.
  - rewrite exec_IfNDef in H. simpl in Hs.
    destruct (defined m e); [now inversion H |].
    revert e H. induction IH as [| x xs Hx _ IHxs]; intros e H; simpl in *.
    + now inversion H.
    + apply andb_prop in Hs. destruct Hs as [Hsx Hsxs].
      destruct (exec x e) as [e1 |] eqn:E; [| discriminate].
      rewrite (IHxs Hsxs e1 H). now apply Hx.
  - rewrite exec_IfDef in H. simpl in Hs.
    apply andb_prop in Hs. destruct Hs as [Hsb Hso].
    destruct (defined m e).
    + revert e H. induction IHb as [| x xs Hx _ IHxs]; intros e H; simpl in *.
      * now inversion H.
      * apply andb_prop in Hsb. destruct Hsb as [Hsx Hsxs].
        destruct (exec x e) as [e1 |] eqn:E; [| discriminate].
        rewrite (IHxs Hsxs e1 H). now apply Hx.
    + revert e H. induction IHo as [| x xs Hx _ IHxs]; intros e H; simpl in *.
      * now inversion H.
      * apply andb_prop in Hso. destruct Hso as [Hsx Hsxs].
        destruct (exec x e) as [e1 |] eqn:E; [| discriminate].
        rewrite (IHxs Hsxs e1 H). now apply Hx.
  - now inversion H.
  - now apply provide_decls in H as ->.
  - now apply provide_decls in H as ->.
  - simpl in H. destruct (lookup b (types e)); [| discriminate].
    inversion H. rewrite shapes_emit. simpl. now rewrite app_nil_r.
  - discriminate.
  - discriminate.
  - inversion H. rewrite shapes_emit. simpl. now rewrite app_nil_r.
  - simpl in H. destruct (lookup t (types e)); [| discriminate].
    inversion H. rewrite shapes_emit. simpl. now rewrite app_nil_r.
Qed.

(** An item outside the conditionals adds exactly what is written. *)
Lemma exec_shape (i : item) (e e' : env) :
  unconditional i = true ->
  exec i e = Some e' ->
  shapes (decls e') = shapes (decls e) ++ written_shape i.
Proof.
  intros Hu H.
  destruct i as [m body | m body orelse | | | | | m b n ms | ms n | | ];
    try (match type of H with
         | exec ?j _ = _ =>
             rewrite (exec_shapeless j ltac:(first [exact Hu | reflexivity]) e e' H)
         end; simpl; now rewrite app_nil_r).
  - simpl in H.
    destruct (lookup m (macros e)) as [[|] |]; try discriminate.
    destruct (lookup b (types e)) as [[rep | |] |]; try discriminate.
    destruct (is_integer rep && forallb _ ms); [| discriminate].
    inversion H. now rewrite shapes_emit.
  - simpl in H.
    destruct (resolve_fields (types e) ms) as [fs |] eqn:E; [| discriminate].
    inversion H. rewrite shapes_emit. simpl.
    now rewrite (resolve_fields_written _ _ _ E).
Qed.

Lemma exec_all_shapes (src : list item) :
  forallb unconditional src = true ->
  forall e e', exec_all src e = Some e' ->
  shapes (decls e') = shapes (decls e) ++ written_shapes src.
Proof.
  induction src as [| x xs IH]; intros Hu e e' H; simpl in *.
  - inversion H. now rewrite app_nil_r.
  - apply andb_prop in Hu. destruct Hu as [Hx Hxs].
    destruct (exec x e) as [e1 |] eqn:E; [| discriminate].
    rewrite (IH Hxs e1 e' H), (exec_shape x e e1 Hx E).
    unfold written_shapes. simpl. now rewrite app_assoc.
Qed.

(** Text whose enumerations and structs all stand outside conditionals
    declares the same ones, with the same members, on every target on which
    it compiles. *)
Lemma shapes_target_independent (src : list item) (t1 t2 : target) ds1 ds2 :
  forallb unconditional src = true ->
  compile t1 src = Some ds1 ->
  compile t2 src = Some ds2 ->
  shapes ds1 = written_shapes src /\ shapes ds2 = written_shapes src.
Proof.
  unfold compile, elaborate. intros Hu H1 H2.
  destruct (exec_all src (init t1)) as [e1 |] eqn:E1; [| discriminate].
  destruct (exec_all src (init t2)) as [e2 |] eqn:E2; [| discriminate].
  inversion H1; inversion H2; subst.
  split; [apply (exec_all_shapes src Hu _ _ E1) | apply (exec_all_shapes src Hu _ _ E2)].
Qed.

End CppFacts.

(* ================================================================== *)
(** ** Properties of ShaderTypes.h *)

Module ShaderTypesFacts.
Import Layout Cpp ShaderTypes Visibility LayoutFacts CppFacts.



(** A second inclusion in the same translation unit contributes nothing. *)
Lemma guard_closed (t : target) (e : env) :
  elaborate t ShaderTypes_h = Some e ->
  exec_all ShaderTypes_h e = Some e.
Proof.
  destruct t as [| []]; intros H; vm_compute in H; inversion H; reflexivity.
Qed.

(** The record is the same list of members on every target. *)
Lemma Uniforms_members (t : target) :
  Uniforms t =
    [ mkField "projectionMatrix" "matrix_float4x4" (Matrix Float32 4 4);
      mkField "viewMatrix" "matrix_float4x4" (Matrix Float32 4 4);
      mkField "lightDirection" "vector_float3" (Vector Float32 3);
      mkField "ambientIntensity" "float" (Scalar Float32) ].
Proof. destruct t as [| []]; reflexivity. Qed.

(** A constant that fits the backing type reads back unchanged. *)
Lemma fits_wrap (rep : scalar) (v : Z) : fits rep v = true -> wrap rep v = v.
Proof.
  unfold fits, wrap. intros H.
  apply andb_prop in H. destruct H as [Hlo Hhi].
  apply Z.leb_le in Hlo. apply Z.ltb_lt in Hhi.
  assert (E : 2 ^ scalar_bits rep = 2 * 2 ^ (scalar_bits rep - 1)).
  { destruct rep; reflexivity. }
  rewrite Z.mod_small; lia.
Qed.

(** Three values drawn from [{0, 1}] cannot be pairwise distinct. *)
Lemma no_three_distinct_bits (vs : list Z) :
  List.length vs = 3%nat -> Forall (fun v => v = 0 \/ v = 1) vs -> ~ NoDup vs.
Proof.
  intros Hlen Hall Hnd.
  destruct vs as [| a [| b [| c [| d r]]]]; try discriminate.
  inversion Hall as [| ? ? Ha Hall1]; subst.
  inversion Hall1 as [| ? ? Hb Hall2]; subst.
  inversion Hall2 as [| ? ? Hc _]; subst.
  inversion Hnd as [| ? ? Hna Hnd1]; subst.
  inversion Hnd1 as [| ? ? Hnb _]; subst.
  simpl in Hna, Hnb. lia.
Qed.

(** C1. On every target the [Uniforms] record holds, in this order, a 4x4
    projection matrix, a 4x4 view matrix, a 3-component light-direction
    vector and one scalar ambient intensity, and the component type of
    every field is the 32-bit floating-point scalar. *)
Theorem Uniforms_fields_in_order (t : target) :
  map (fun f => (f_name f, f_type f)) (Uniforms t) =
    [ ("projectionMatrix", Matrix Float32 4 4);
      ("viewMatrix", Matrix Float32 4 4);
      ("lightDirection", Vector Float32 3);
      ("ambientIntensity", Scalar Float32) ] /\
  map (fun f => components (f_type f)) (Uniforms t) = [16; 16; 3; 1] /\
  Forall (fun f => is_float (elem_type (f_type f)) = true /\
                   scalar_bits (elem_type (f_type f)) = 32) (Uniforms t).
Proof.
  destruct t as [| []]; (split; [reflexivity | split; [reflexivity |]]);
    repeat constructor.
Qed.

(** C2. On every target the [BufferIndex] constant set contains the member
    [Vertices] with value 0 and the member [Uniforms] with value 1, and the
    two identifiers carry distinct integers. *)
Theorem BufferIndex_Vertices_Uniforms (t : target) :
  exists ms,
    constant_set t "BufferIndex" = Some ms /\
    In ("Vertices", 0) ms /\
    In ("Uniforms", 1) ms /\
    lookup "Vertices" ms = Some 0 /\
    lookup "Uniforms" ms = Some 1 /\
    lookup "Vertices" ms <> lookup "Uniforms" ms.
Proof.
  exists [("Vertices", 0); ("Uniforms", 1)].
  split; [destruct t as [| []]; reflexivity |].
  simpl. repeat split; auto. discriminate.
Qed.

(** C3. On every target the [VertexAttribute] constant set consists of
    exactly three identifiers, [Position] = 0, [Normal] = 1 and [Color] = 2,
    and the three values are pairwise distinct. *)
Theorem VertexAttribute_three_members (t : target) :
  exists ms,
    constant_set t "VertexAttribute" = Some ms /\
    ms = [("Position", 0); ("Normal", 1); ("Color", 2)] /\
    List.length ms = 3%nat /\
    NoDup (map snd ms).
Proof.
  eexists. split; [destruct t as [| []]; reflexivity |].
  split; [reflexivity | split; [reflexivity |]].
  simpl. repeat constructor; simpl; intuition lia.
Qed.

(** C5, as stated, fails: [BufferIndex] does not have three identifiers
    with pairwise distinct values drawn from [{0, 1}]; it has two. *)
Lemma BufferIndex_not_three_members :
  ~ (exists ms,
       constant_set Metal "BufferIndex" = Some ms /\
       List.length ms = 3%nat /\
       Forall (fun mv => snd mv = 0 \/ snd mv = 1) ms /\
       NoDup (map snd ms)).
Proof.
  intros (ms & Hset & Hlen & _). vm_compute in Hset.
  inversion Hset; subst. discriminate.
Qed.

(** C5, amended. On every target [BufferIndex] has exactly two
    identifiers; their values are 0 and 1 in declaration order, each drawn
    from [{0, 1}], and pairwise distinct. *)
Theorem BufferIndex_two_members (t : target) :
  exists ms,
    constant_set t "BufferIndex" = Some ms /\
    List.length ms = 2%nat /\
    map snd ms = [0; 1] /\
    Forall (fun mv => snd mv = 0 \/ snd mv = 1) ms /\
    NoDup (map snd ms).
Proof.
  exists [("Vertices", 0); ("Uniforms", 1)].
  split; [destruct t as [| []]; reflexivity |].
  split; [reflexivity | split; [reflexivity | split]].
  - constructor; [now left | constructor; [now right | constructor]].
  - simpl. repeat constructor; simpl; intuition lia.
Qed.

(** C4. On every target, and for every platform table that stores a 4x4
    float matrix as the 64 bytes of a 4x4 array of 32-bit floats and aligns
    the matrix and vector types to divisors of 64 and 128, the size of
    [Uniforms] and the offsets of its four fields are those of a sequential
    layout of a 4x4 float array, a second one, a 3-float vector and one
    float, with no padding other than what alignment requires:
    [projectionMatrix] is at offset 0, [viewMatrix] at 64, [lightDirection]
    at 128, [ambientIntensity] at the first address its alignment allows
    after the end of the light-direction vector, and the size of the record
    is the first multiple of the largest member alignment at or after the
    end of [ambientIntensity]. *)
Theorem Uniforms_layout_sequential (A : abi) (t : target)
  (Hfloat : 0 < alignof A (Scalar Float32))
  (Hmat : sizeof A (Matrix Float32 4 4) = 64)
  (Hmat_pos : 0 < alignof A (Matrix Float32 4 4))
  (Hmat_al : (alignof A (Matrix Float32 4 4) | 64))
  (Hvec_pos : 0 < alignof A (Vector Float32 3))
  (Hvec_al : (alignof A (Vector Float32 3) | 128)) :
  map f_type (Uniforms t) =
    [Matrix Float32 4 4; Matrix Float32 4 4; Vector Float32 3; Scalar Float32] /\
  sizeof A (Matrix Float32 4 4) = packed_sizeof (Matrix Float32 4 4) /\
  sequential_struct A (Uniforms t) (slots_of A (Uniforms t))
    (struct_size A (Uniforms t)) /\
  offset_of A (Uniforms t) "projectionMatrix" = Some 0 /\
  offset_of A (Uniforms t) "viewMatrix" = Some 64 /\
  offset_of A (Uniforms t) "lightDirection" = Some 128 /\
  exists o,
    offset_of A (Uniforms t) "ambientIntensity" = Some o /\
    first_aligned (alignof A (Scalar Float32))
      (128 + sizeof A (Vector Float32 3)) o /\
    first_aligned
      (Z.max (alignof A (Matrix Float32 4 4))
         (Z.max (alignof A (Vector Float32 3)) (alignof A (Scalar Float32))))
      (o + sizeof A (Scalar Float32))
      (struct_size A (Uniforms t)).
Proof.
  rewrite Uniforms_members.
  split; [reflexivity |].
  split; [now rewrite Hmat |].
  split; [apply struct_layout_sequential; repeat constructor; assumption |].
  assert (E0 : align_up (alignof A (Matrix Float32 4 4)) 0 = 0).
  { apply align_up_fixed; [assumption | apply Z.divide_0_r]. }
  assert (E1 : align_up (alignof A (Matrix Float32 4 4)) 64 = 64).
  { now apply align_up_fixed. }
  assert (E2 : align_up (alignof A (Vector Float32 3)) 128 = 128).
  { now apply align_up_fixed. }
  assert (Hal : struct_align A
                  [ mkField "projectionMatrix" "matrix_float4x4" (Matrix Float32 4 4);
                    mkField "viewMatrix" "matrix_float4x4" (Matrix Float32 4 4);
                    mkField "lightDirection" "vector_float3" (Vector Float32 3);
                    mkField "ambientIntensity" "float" (Scalar Float32) ] =
                Z.max (alignof A (Matrix Float32 4 4))
                  (Z.max (alignof A (Vector Float32 3)) (alignof A (Scalar Float32)))).
  { cbn [struct_align fold_right f_type]. lia. }
  unfold struct_size. rewrite Hal.
  unfold offset_of, slots_of. cbn [place f_type f_name].
  rewrite E0, Hmat. cbn [Z.add Pos.add Pos.succ]. rewrite E1.
  cbn [Z.add Pos.add Pos.succ Pos.add_carry]. rewrite E2.
  cbn [fst snd find_slot s_name s_offset option_map String.eqb Ascii.eqb Bool.eqb].
  repeat (split; [reflexivity |]).
  eexists. split; [reflexivity |]. split.
  - now apply align_up_first.
  - apply align_up_first. lia.
Qed.

Lemma Uniforms_layout_sequential_witness :
  (0 < alignof apple_simd (Scalar Float32) /\
   sizeof apple_simd (Matrix Float32 4 4) = 64 /\
   0 < alignof apple_simd (Matrix Float32 4 4) /\
   (alignof apple_simd (Matrix Float32 4 4) | 64) /\
   0 < alignof apple_simd (Vector Float32 3) /\
   (alignof apple_simd (Vector Float32 3) | 128)) /\
  (map f_type (Uniforms Metal) =
     [Matrix Float32 4 4; Matrix Float32 4 4; Vector Float32 3; Scalar Float32] /\
   sizeof apple_simd (Matrix Float32 4 4) = packed_sizeof (Matrix Float32 4 4) /\
   sequential_struct apple_simd (Uniforms Metal)
     (slots_of apple_simd (Uniforms Metal))
     (struct_size apple_simd (Uniforms Metal)) /\
   offset_of apple_simd (Uniforms Metal) "projectionMatrix" = Some 0 /\
   offset_of apple_simd (Uniforms Metal) "viewMatrix" = Some 64 /\
   offset_of apple_simd (Uniforms Metal) "lightDirection" = Some 128 /\
   exists o,
     offset_of apple_simd (Uniforms Metal) "ambientIntensity" = Some o /\
     first_aligned (alignof apple_simd (Scalar Float32))
       (128 + sizeof apple_simd (Vector Float32 3)) o /\
     first_aligned
       (Z.max (alignof apple_simd (Matrix Float32 4 4))
          (Z.max (alignof apple_simd (Vector Float32 3))
             (alignof apple_simd (Scalar Float32))))
       (o + sizeof apple_simd (Scalar Float32))
       (struct_size apple_simd (Uniforms Metal))) /\
  offset_of apple_simd (Uniforms Metal) "ambientIntensity" = Some 144 /\
  struct_size apple_simd (Uniforms Metal) = 160.
Proof.
  assert (H1 : 0 < alignof apple_simd (Scalar Float32)) by reflexivity.
  assert (H2 : sizeof apple_simd (Matrix Float32 4 4) = 64) by reflexivity.
  assert (H3 : 0 < alignof apple_simd (Matrix Float32 4 4)) by reflexivity.
  assert (H4 : (alignof apple_simd (Matrix Float32 4 4) | 64))
    by (exists 4; reflexivity).
  assert (H5 : 0 < alignof apple_simd (Vector Float32 3)) by reflexivity.
  assert (H6 : (alignof apple_simd (Vector Float32 3) | 128))
    by (exists 8; reflexivity).
  split; [repeat split; assumption |].
  split; [| split; reflexivity].
  apply (Uniforms_layout_sequential apple_simd Metal H1 H2 H3 H4 H5 H6).
Defined.

(** C7. On every target [Uniforms] is not tightly packed: because the simd
    3-float vector has the size and alignment of four floats (16 bytes),
    [ambientIntensity] sits at byte offset 144 rather than 140 and the
    record occupies 160 bytes rather than the 144 of a tight packing; the
    scalar's bytes are disjoint from the vector's 4 bytes of padding. *)
Theorem Uniforms_not_tightly_packed (A : abi) (t : target)
  (Hfloat : sizeof A (Scalar Float32) = 4)
  (Hfloat_al : alignof A (Scalar Float32) = 4)
  (Hmat : sizeof A (Matrix Float32 4 4) = 64)
  (Hmat_al : alignof A (Matrix Float32 4 4) = 16)
  (Hvec : sizeof A (Vector Float32 3) = 16)
  (Hvec_al : alignof A (Vector Float32 3) = 16) :
  sizeof A (Vector Float32 3) = 4 * sizeof A (Scalar Float32) /\
  offset_of A (Uniforms t) "ambientIntensity" = Some 144 /\
  packed_offset_of (Uniforms t) "ambientIntensity" = Some 140 /\
  struct_size A (Uniforms t) = 160 /\
  packed_size (Uniforms t) = 144 /\
  struct_size A (Uniforms t) <> packed_size (Uniforms t) /\
  tail_padding A (Uniforms t) "lightDirection" = Some (140, 4) /\
  disjoint_ranges 144 (sizeof A (Scalar Float32)) 140 4.
Proof.
  assert (Hagree : Forall (fun f => sizeof A (f_type f) = sizeof apple_simd (f_type f) /\
                                    alignof A (f_type f) = alignof apple_simd (f_type f))
                          (Uniforms t)).
  { rewrite Uniforms_members. repeat constructor; assumption. }
  unfold offset_of, tail_padding, struct_size, slots_of.
  rewrite (struct_align_ext A apple_simd _ Hagree).
  rewrite (place_ext A apple_simd _ Hagree 0).
  rewrite Hvec, Hfloat, Uniforms_members.
  repeat (split; [reflexivity |]).
  split; [discriminate |].
  split; [reflexivity |].
  right. reflexivity.
Qed.

Lemma Uniforms_not_tightly_packed_witness :
  (sizeof apple_simd (Scalar Float32) = 4 /\
   alignof apple_simd (Scalar Float32) = 4 /\
   sizeof apple_simd (Matrix Float32 4 4) = 64 /\
   alignof apple_simd (Matrix Float32 4 4) = 16 /\
   sizeof apple_simd (Vector Float32 3) = 16 /\
   alignof apple_simd (Vector Float32 3) = 16) /\
  (sizeof apple_simd (Vector Float32 3) = 4 * sizeof apple_simd (Scalar Float32) /\
   offset_of apple_simd (Uniforms Metal) "ambientIntensity" = Some 144 /\
   packed_offset_of (Uniforms Metal) "ambientIntensity" = Some 140 /\
   struct_size apple_simd (Uniforms Metal) = 160 /\
   packed_size (Uniforms Metal) = 144 /\
   struct_size apple_simd (Uniforms Metal) <> packed_size (Uniforms Metal) /\
   tail_padding apple_simd (Uniforms Metal) "lightDirection" = Some (140, 4) /\
   disjoint_ranges 144 (sizeof apple_simd (Scalar Float32)) 140 4).
Proof.
  split; [repeat split; reflexivity |].
  apply (Uniforms_not_tightly_packed apple_simd Metal
           eq_refl eq_refl eq_refl eq_refl eq_refl eq_refl).
Defined.

(** C6, as stated, fails: the two constant sets and the record are not
    everything the header shows.  In Metal mode its own text also defines
    the macros [ShaderTypes_h] and [NS_ENUM] and declares the type alias
    [EnumBackingType]; none of the three is one of the constant sets or the
    record. *)
Lemma header_shows_more_than_three :
  (exists d,
     In d (declarations Metal) /\
     In (VDecl d) (visible_content Metal) /\
     decl_kind d = KAlias /\
     decl_name d = "EnumBackingType" /\
     ~ In (decl_name d) data_names) /\
  In (VMacro "ShaderTypes_h" ObjectLike) (visible_content Metal) /\
  In (VMacro "NS_ENUM" EnumMacro) (visible_content Metal) /\
  ~ In "ShaderTypes_h" data_names /\
  ~ In "NS_ENUM" data_names.
Proof.
  split.
  { exists (DAlias "EnumBackingType" "metal::int32_t" (Scalar Int32)).
    split; [left; reflexivity |].
    split; [right; right; left; reflexivity |].
    split; [reflexivity | split; [reflexivity |]].
    simpl. intros [H | [H | [H | []]]]; discriminate. }
  split; [left; reflexivity |].
  split; [right; left; reflexivity |].
  split; simpl; intros [H | [H | [H | []]]]; discriminate.
Qed.

(** C6, amended. On every target the header's entire visible content,
    besides what the platform headers it includes bring in
    ([Foundation.h] in host mode, [simd/simd.h]), is: the include-guard
    macro [ShaderTypes_h], in Metal mode the macro [NS_ENUM], the integer
    alias [EnumBackingType], the constant sets [BufferIndex] and
    [VertexAttribute] and the record [Uniforms], whose fields are all
    floating-point data.  The declarations shown are exactly those the
    elaboration makes, and the macros an includer finds defined afterwards
    are exactly the header's own, Foundation's [NS_ENUM] in host mode and
    the target's predefined ones.  No declaration is a function or a
    variable, and no branch of the text contains a function or variable
    definition, so the header exposes no operations and no state. *)
Theorem header_entire_visible_content (t : target) :
  map describe (visible_content t) =
    EMacro "ShaderTypes_h" ::
    match t with
    | Metal => EMacro "NS_ENUM"
    | Host _ => EPlatform "Foundation/Foundation.h"
    end ::
    [ EDecl "EnumBackingType" KAlias;
      EPlatform "simd/simd.h";
      EDecl "BufferIndex" KConstants;
      EDecl "VertexAttribute" KConstants;
      EDecl "Uniforms" KRecord ] /\
  decls_of (visible_content t) = declarations t /\
  macros_after t =
    match t with
    | Metal => rev (macros_of (visible_content t))
    | Host _ => "NS_ENUM" :: rev (macros_of (visible_content t))
    end ++ map fst (predefined t) /\
  map (fun d => (decl_name d, decl_kind d)) (declarations t) =
    [ ("EnumBackingType", KAlias);
      ("BufferIndex", KConstants);
      ("VertexAttribute", KConstants);
      ("Uniforms", KRecord) ] /\
  existsb is_operation (declarations t) = false /\
  existsb is_state (declarations t) = false /\
  existsb is_behaviour (flat_map flatten ShaderTypes_h) = false /\
  Forall (fun f => is_float (elem_type (f_type f)) = true) (Uniforms t).
Proof.
  repeat (split; [destruct t as [| []]; reflexivity |]).
  destruct t as [| []]; repeat constructor.
Qed.

(** C8. The integer type behind both constant sets is [metal::int32_t]
    (32 bits) in Metal mode and [NSInteger] in host mode (64 bits under
    LP64), so the backing types of the two modes differ; every constant the
    header defines (0, 1, 0, 1, 2) fits both the 32-bit and the 64-bit
    type and reads back unchanged at either width, and each identifier
    denotes the same integer in Metal mode and in host mode. *)
Theorem backing_types_differ_constants_agree (dm : data_model) :
  Forall (fun enum =>
            backing_of Metal enum = Some ("metal::int32_t", Int32) /\
            backing_of (Host dm) enum =
              Some ("NSInteger", match dm with LP64 => Int64 | ILP32 => Int32 end) /\
            backing_of Metal enum <> backing_of (Host dm) enum)
         ["BufferIndex"; "VertexAttribute"] /\
  scalar_bits Int32 = 32 /\
  scalar_bits Int64 = 64 /\
  map snd (enum_constants Metal) = [0; 1; 0; 1; 2] /\
  enum_constants (Host dm) = enum_constants Metal /\
  Forall (fun emv =>
            let '(enum, member, v) := emv in
            fits Int32 v = true /\ fits Int64 v = true /\
            wrap Int32 v = v /\ wrap Int64 v = v /\
            denotes Metal enum member = Some v /\
            denotes (Host dm) enum member = Some v)
         (enum_constants Metal).
Proof.
  split.
  { repeat constructor; try (destruct dm; reflexivity);
      destruct dm; discriminate. }
  split; [reflexivity | split; [reflexivity | split; [reflexivity |]]].
  split; [destruct dm; reflexivity |].
  assert (Hfit : Forall (fun emv : string * string * Z =>
                           fits Int32 (snd emv) = true /\ fits Int64 (snd emv) = true)
                        (enum_constants Metal)).
  { repeat constructor. }
  rewrite Forall_forall in Hfit |- *.
  intros [[enum member] v] Hin.
  destruct (Hfit _ Hin) as [H32 H64]. simpl in H32, H64.
  repeat split; auto using fits_wrap.
  - simpl in Hin.
    repeat (destruct Hin as [Hin | Hin]; [inversion Hin; subst; reflexivity |]).
    destruct Hin.
  - simpl in Hin.
    repeat (destruct Hin as [Hin | Hin];
            [inversion Hin; subst; destruct dm; reflexivity |]).
    destruct Hin.
Qed.




End ShaderTypesFacts.

(* ================================================================== *)
(** ** Including the header in a translation unit *)

Module InclusionFacts.
Import Layout Cpp ShaderTypes Notions CppFacts.

Lemma extends_refl (e : env) : extends e e.
Proof.
  repeat split; auto. exists []. now rewrite app_nil_r.
Qed.

Lemma extends_trans (e1 e2 e3 : env) :
  extends e1 e2 -> extends e2 e3 -> extends e1 e3.
Proof.
  intros (M1 & T1 & [d1 D1]) (M2 & T2 & [d2 D2]). repeat split; auto.
  exists (d1 ++ d2). now rewrite D2, D1, app_assoc.
Qed.

Lemma lookup_cons_known {A : Type} (k k' : string) (v : A) (l : list (string * A)) :
  lookup k l <> None -> lookup k ((k', v) :: l) <> None.
Proof. simpl. destruct (String.eqb k' k); [discriminate | auto]. Qed.

Lemma defined_add_macro (m m' : string) (d : macro_def) (e : env) :
  defined m e = true -> defined m (add_macro m' d e) = true.
Proof.
  unfold defined. simpl. destruct (String.eqb m' m); [reflexivity | auto].
Qed.

Lemma defined_add_macro_same (m : string) (d : macro_def) (e : env) :
  defined m (add_macro m d e) = true.
Proof. unfold defined. simpl. now rewrite String.eqb_refl. Qed.

Lemma extends_add_macro (m : string) (d : macro_def) (e : env) :
  extends e (add_macro m d e).
Proof.
  repeat split; auto using defined_add_macro.
  exists []. simpl. now rewrite app_nil_r.
Qed.

Lemma extends_add_type (n : string) (t : ctype) (e : env) :
  extends e (add_type n t e).
Proof.
  repeat split; auto.
  - intros k. simpl. apply lookup_cons_known.
  - exists []. simpl. now rewrite app_nil_r.
Qed.

Lemma extends_emit (d : decl) (e : env) : extends e (emit d e).
Proof. repeat split; auto. now exists [d]. Qed.

Lemma provide_extends (p : string) (e e' : env) :
  provide p e = Some e' -> extends e e'.
Proof.
  unfold provide. intros H.
  destruct (String.eqb p "Foundation/Foundation.h").
  - destruct (lookup _ (types e)); inversion H.
    eapply extends_trans; [apply extends_add_type | apply extends_add_macro].
  - destruct (String.eqb p "simd/simd.h"); inversion H.
    eapply extends_trans; apply extends_add_type.
Qed.

(** A list of items keeps what each of its items keeps. *)
Lemma exec_all_extends (l : list item) :
  Forall (fun i => forall e e', exec i e = Some e' -> extends e e') l ->
  forall e e', exec_all l e = Some e' -> extends e e'.
Proof.
  induction 1 as [| x xs Hx _ IH]; intros e e' H; simpl in H.
  - inversion H. apply extends_refl.
  - destruct (exec x e) as [e1 |] eqn:E; [| discriminate].
    eapply extends_trans; [apply (Hx _ _ E) | apply (IH _ _ H)].
Qed.

(** No construct of header text takes anything away. *)
Lemma exec_extends (i : item) (e e' : env) :
  exec i e = Some e' -> extends e e'.
Proof.
  revert e e'.
  induction i as [m body IH | m body orelse IHb IHo | | | | | | | | ]
    using item_nested_ind; intros e e' H.
  - rewrite exec_IfNDef in H. destruct (defined m e).
    + inversion H. apply extends_refl.
    + now apply (exec_all_extends body IH).
  - rewrite exec_IfDef in H. destruct (defined m e).
    + now apply (exec_all_extends body IHb).
    + now apply (exec_all_extends orelse IHo).
  - inversion H. apply extends_add_macro.
  - now apply provide_extends in H.
  - now apply provide_extends in H.
  - simpl in H. destruct (lookup b (types e)); inversion H.
    eapply extends_trans; [apply extends_add_type | apply extends_emit].
  - simpl in H.
    destruct (lookup m (macros e)) as [[|] |]; try discriminate.
    destruct (lookup b (types e)) as [[rep | |] |]; try discriminate.
    destruct (is_integer rep && forallb _ ms); inversion H.
    eapply extends_trans; [apply extends_add_type | apply extends_emit].
  - simpl in H. destruct (resolve_fields (types e) ms); inversion H.
    apply extends_emit.
  - inversion H. apply extends_emit.
  - simpl in H. destruct (lookup t (types e)); inversion H.
    apply extends_emit.
Qed.

Lemma exec_all_extends_any (l : list item) (e e' : env) :
  exec_all l e = Some e' -> extends e e'.
Proof.
  apply exec_all_extends. apply Forall_forall. intros i _ e1 e2.
  apply exec_extends.
Qed.

(** Any header of the form [#ifndef g / #define g / body / #endif] leaves
    [g] defined and is skipped when it is included again. *)
Lemma guarded_header_idempotent (g : string) (d : macro_def) (body : list item)
  (e e' : env) :
  exec_all [IfNDef g (Define g d :: body)] e = Some e' ->
  defined g e' = true /\
  exec_all [IfNDef g (Define g d :: body)] e' = Some e'.
Proof.
  intros H.
  assert (Hdef : defined g e' = true).
  { cbn [exec_all] in H. rewrite exec_IfNDef in H.
    destruct (defined g e) eqn:G.
    - inversion H; subst. exact G.
    - destruct (exec_all (Define g d :: body) e) as [e1 |] eqn:E; [| discriminate].
      inversion H; subst. cbn [exec_all exec] in E.
      apply exec_all_extends_any in E. destruct E as (M & _).
      apply M, defined_add_macro_same. }
  split; [exact Hdef |].
  cbn [exec_all]. rewrite exec_IfNDef, Hdef. reflexivity.
Qed.

(** X1. In any translation unit in which the header compiles, including it
    a second time changes nothing: the include guard is defined after the
    first inclusion and the whole text is skipped the second time. *)
Theorem include_guard_idempotent (e e' : env) :
  exec_all ShaderTypes_h e = Some e' ->
  defined "ShaderTypes_h" e' = true /\
  exec_all ShaderTypes_h e' = Some e'.
Proof. apply guarded_header_idempotent. Qed.

Lemma include_guard_idempotent_witness :
  exists e',
    exec_all ShaderTypes_h (init Metal) = Some e' /\
    defined "ShaderTypes_h" e' = true /\
    exec_all ShaderTypes_h e' = Some e'.
Proof.
  eexists. split; [reflexivity |].
  apply (include_guard_idempotent (init Metal)). reflexivity.
Defined.

(** X7. In Metal mode the header relies on the including shader for the
    Metal standard library: in a translation unit where the guard is open,
    [__METAL_VERSION__] is defined and [metal::int32_t] is not declared, the
    header is rejected. *)
Theorem metal_needs_int32_t (e : env) :
  defined "ShaderTypes_h" e = false ->
  defined "__METAL_VERSION__" e = true ->
  lookup "metal::int32_t" (types e) = None ->
  exec_all ShaderTypes_h e = None.
Proof.
  intros Hguard Hmetal Hty.
  unfold ShaderTypes_h. cbn [exec_all].
  rewrite exec_IfNDef, Hguard. cbn [exec_all].
  change (exec (Define "ShaderTypes_h" ObjectLike) e)
    with (Some (add_macro "ShaderTypes_h" ObjectLike e)).
  cbv iota. rewrite exec_IfDef.
  rewrite (defined_add_macro _ "ShaderTypes_h" ObjectLike e Hmetal).
  cbn [exec_all].
  change (exec (Define "NS_ENUM" EnumMacro) (add_macro "ShaderTypes_h" ObjectLike e))
    with (Some (add_macro "NS_ENUM" EnumMacro (add_macro "ShaderTypes_h" ObjectLike e))).
  cbv iota. cbn [exec add_macro types]. now rewrite Hty.
Qed.

Lemma metal_needs_int32_t_witness :
  exec_all ShaderTypes_h
    (mkEnv (predefined Metal) [("float", Scalar Float32)] []) = None.
Proof.
  apply (metal_needs_int32_t
           (mkEnv (predefined Metal) [("float", Scalar Float32)] []));
    reflexivity.
Defined.

End InclusionFacts.

(* ================================================================== *)
(** ** Further properties of the layout of Uniforms *)

Module UniformsFacts.
Import Layout Cpp ShaderTypes Notions LayoutFacts ShaderTypesFacts.

Section PlaceFacts.

Variable A : abi.

(** The placed members follow one another from the start position to the
    end the rule reports. *)
Lemma place_laid_out (fs : list field) :
  aligned A fs -> sized A fs ->
  forall pos, laid_out pos (snd (place A pos fs)) (fst (place A pos fs)).
Proof.
  induction 1 as [| f fs Hf _ IH]; intros Hs pos; simpl.
  - lia.
  - inversion Hs as [| ? ? Hsf Hsfs]; subst.
    specialize (IH Hsfs (align_up (alignof A (f_type f)) pos + sizeof A (f_type f))).
    destruct (place A (align_up (alignof A (f_type f)) pos + sizeof A (f_type f)) fs)
      as [ss fin]; simpl in *.
    repeat split; [now apply align_up_ge | exact Hsf | exact IH].
Qed.

Lemma place_names (fs : list field) (pos : Z) :
  map s_name (fst (place A pos fs)) = map f_name fs.
Proof.
  revert pos. induction fs as [| f fs IH]; intros pos; simpl.
  - reflexivity.
  - specialize (IH (align_up (alignof A (f_type f)) pos + sizeof A (f_type f))).
    destruct (place A (align_up (alignof A (f_type f)) pos + sizeof A (f_type f)) fs).
    simpl in *. now rewrite IH.
Qed.

(** Every member starts at a multiple of its own alignment. *)
Lemma place_offsets_aligned (fs : list field) (pos : Z) :
  Forall (fun fs => (alignof A (f_type (fst fs)) | s_offset (snd fs)))
         (combine fs (fst (place A pos fs))).
Proof.
  revert pos. induction fs as [| f fs IH]; intros pos; simpl.
  - constructor.
  - specialize (IH (align_up (alignof A (f_type f)) pos + sizeof A (f_type f))).
    destruct (place A (align_up (alignof A (f_type f)) pos + sizeof A (f_type f)) fs).
    simpl in *. constructor; [apply align_up_divide | exact IH].
Qed.

(** In an array of the struct every member of every element is aligned,
    when each member's alignment divides the struct's. *)
Lemma element_slots_aligned (fs : list field) (k : Z) :
  Forall (fun f => (alignof A (f_type f) | struct_align A fs)) fs ->
  Forall (fun p => (alignof A (f_type (fst p)) | snd p)) (element_slots A fs k).
Proof.
  intros Hdiv. unfold element_slots. apply Forall_map.
  pose proof (place_offsets_aligned fs 0) as Hoff.
  rewrite Forall_forall in Hdiv, Hoff |- *.
  intros [f s] Hin. simpl.
  apply Z.divide_add_r.
  - apply Z.divide_mul_r.
    apply Z.divide_trans with (struct_align A fs).
    + apply Hdiv. eapply in_combine_l. exact Hin.
    + apply align_up_divide.
  - apply (Hoff (f, s) Hin).
Qed.

End PlaceFacts.

Lemma map_fst_combine {X Y : Type} (l : list X) (l' : list Y) :
  List.length l = List.length l' -> map fst (combine l l') = l.
Proof.
  revert l'. induction l as [| x xs IH]; intros [| y ys] H; simpl in *;
    try discriminate; try reflexivity.
  f_equal. apply IH. now inversion H.
Qed.

Lemma laid_out_weaken (lo lo' hi : Z) (ss : list slot) :
  lo' <= lo -> laid_out lo hi ss -> lo' <= hi /\ laid_out lo' hi ss.
Proof.
  revert lo lo'. induction ss as [| s ss IH]; intros lo lo' Hle H; simpl in *.
  - lia.
  - destruct H as (H1 & H2 & H3).
    destruct (IH (s_offset s + s_size s) (s_offset s + s_size s) ltac:(lia) H3)
      as [Hhi _].
    repeat split; try lia. exact H3.
Qed.

Lemma laid_out_within (lo hi : Z) (ss : list slot) :
  laid_out lo hi ss ->
  Forall (fun s => lo <= s_offset s /\ s_offset s + s_size s <= hi) ss.
Proof.
  revert lo. induction ss as [| s ss IH]; intros lo H; simpl in *.
  - constructor.
  - destruct H as (H1 & H2 & H3).
    destruct (laid_out_weaken (s_offset s + s_size s) (s_offset s + s_size s) hi ss
                ltac:(lia) H3) as [Hhi _].
    constructor; [lia |].
    eapply Forall_impl; [| apply (IH _ H3)].
    simpl. intros s' [Ha Hb]. lia.
Qed.

Lemma laid_out_disjoint (lo hi : Z) (ss : list slot) :
  laid_out lo hi ss -> ForallOrdPairs slots_disjoint ss.
Proof.
  revert lo. induction ss as [| s ss IH]; intros lo H; simpl in *.
  - constructor.
  - destruct H as (H1 & H2 & H3). constructor; [| apply (IH _ H3)].
    eapply Forall_impl; [| apply (laid_out_within _ _ _ H3)].
    intros s' [Ha _]. left. exact Ha.
Qed.



(** X4. Whatever the platform table, provided alignments are positive and
    sizes are not negative, the four fields of [Uniforms] get one slot
    each, in declaration order; no two slots share a byte, and every slot
    lies inside the record. *)
Theorem Uniforms_fields_disjoint (A : abi) (t : target)
  (Hfa : 0 < alignof A (Scalar Float32))
  (Hva : 0 < alignof A (Vector Float32 3))
  (Hma : 0 < alignof A (Matrix Float32 4 4))
  (Hf : 0 <= sizeof A (Scalar Float32))
  (Hv : 0 <= sizeof A (Vector Float32 3))
  (Hm : 0 <= sizeof A (Matrix Float32 4 4)) :
  map s_name (slots_of A (Uniforms t)) =
    ["projectionMatrix"; "viewMatrix"; "lightDirection"; "ambientIntensity"] /\
  ForallOrdPairs slots_disjoint (slots_of A (Uniforms t)) /\
  Forall (fun s => 0 <= s_offset s /\
                   s_offset s + s_size s <= struct_size A (Uniforms t))
         (slots_of A (Uniforms t)).
Proof.
  assert (Hal : aligned A (Uniforms t)).
  { rewrite Uniforms_members. repeat constructor; assumption. }
  assert (Hsz : sized A (Uniforms t)).
  { rewrite Uniforms_members. repeat constructor; assumption. }
  pose proof (place_laid_out A _ Hal Hsz 0) as L.
  split; [unfold slots_of; rewrite place_names, Uniforms_members; reflexivity |].
  split; [apply (laid_out_disjoint _ _ _ L) |].
  eapply Forall_impl; [| apply (laid_out_within _ _ _ L)].
  intros s [Ha Hb]. split; [exact Ha |].
  pose proof (align_up_ge (struct_align A (Uniforms t))
                (snd (place A 0 (Uniforms t))) (struct_align_pos A _)).
  unfold struct_size. lia.
Qed.

Lemma Uniforms_fields_disjoint_witness :
  map s_name (slots_of apple_simd (Uniforms Metal)) =
    ["projectionMatrix"; "viewMatrix"; "lightDirection"; "ambientIntensity"] /\
  ForallOrdPairs slots_disjoint (slots_of apple_simd (Uniforms Metal)) /\
  Forall (fun s => 0 <= s_offset s /\
                   s_offset s + s_size s <= struct_size apple_simd (Uniforms Metal))
         (slots_of apple_simd (Uniforms Metal)).
Proof.
  apply (Uniforms_fields_disjoint apple_simd Metal);
    first [reflexivity | discriminate].
Defined.

(** X5. Records of type [Uniforms] can be stored back to back: when the
    alignments of [float], [vector_float3] and [matrix_float4x4] nest (each
    divides the next, as powers of two do), every field of the [k]-th
    element of an array of [Uniforms], at [k * sizeof(Uniforms)] plus its
    offset, is aligned for its type. *)
Theorem Uniforms_array_aligned (A : abi) (t : target) (k : Z)
  (Hf : 0 < alignof A (Scalar Float32))
  (Hfv : (alignof A (Scalar Float32) | alignof A (Vector Float32 3)))
  (Hv : 0 < alignof A (Vector Float32 3))
  (Hvm : (alignof A (Vector Float32 3) | alignof A (Matrix Float32 4 4)))
  (Hm : 0 < alignof A (Matrix Float32 4 4)) :
  map (fun p => f_name (fst p)) (element_slots A (Uniforms t) k) =
    ["projectionMatrix"; "viewMatrix"; "lightDirection"; "ambientIntensity"] /\
  Forall (fun p => (alignof A (f_type (fst p)) | snd p))
         (element_slots A (Uniforms t) k).
Proof.
  split.
  { unfold element_slots. rewrite map_map. simpl.
    rewrite <- (map_map fst f_name), map_fst_combine.
    - now rewrite Uniforms_members.
    - unfold slots_of.
      rewrite <- (length_map s_name), place_names, length_map. reflexivity. }
  apply element_slots_aligned.
  pose proof (Z.divide_pos_le _ _ Hv Hfv).
  pose proof (Z.divide_pos_le _ _ Hm Hvm).
  assert (E : struct_align A (Uniforms t) = alignof A (Matrix Float32 4 4)).
  { rewrite Uniforms_members. simpl. lia. }
  rewrite E, Uniforms_members.
  repeat constructor; simpl.
  - apply Z.divide_refl.
  - apply Z.divide_refl.
  - exact Hvm.
  - now apply Z.divide_trans with (alignof A (Vector Float32 3)).
Qed.

Lemma Uniforms_array_aligned_witness :
  element_slots apple_simd (Uniforms Metal) 2 =
    map (fun p => (fst p, 320 + s_offset (snd p)))
        (combine (Uniforms Metal) (slots_of apple_simd (Uniforms Metal))) /\
  Forall (fun p => (alignof apple_simd (f_type (fst p)) | snd p))
         (element_slots apple_simd (Uniforms Metal) 2).
Proof.
  split; [reflexivity |].
  apply (Uniforms_array_aligned apple_simd Metal 2).
  - reflexivity.
  - exists 4. reflexivity.
  - reflexivity.
  - exists 1. reflexivity.
  - reflexivity.
Defined.

(** X6. On any platform whose types are aligned to positive addresses and
    are stored in no fewer bytes than their components need, [Uniforms]
    occupies at least the 144 bytes of its 36 floats: padding only ever
    adds. *)
Theorem Uniforms_size_at_least_packed (A : abi) (t : target)
  (Hfa : 0 < alignof A (Scalar Float32))
  (Hva : 0 < alignof A (Vector Float32 3))
  (Hma : 0 < alignof A (Matrix Float32 4 4))
  (Hf : packed_sizeof (Scalar Float32) <= sizeof A (Scalar Float32))
  (Hv : packed_sizeof (Vector Float32 3) <= sizeof A (Vector Float32 3))
  (Hm : packed_sizeof (Matrix Float32 4 4) <= sizeof A (Matrix Float32 4 4)) :
  packed_size (Uniforms t) = 144 /\
  144 <= struct_size A (Uniforms t).
Proof.
  assert (Hp : packed_size (Uniforms t) = 144) by now rewrite Uniforms_members.
  split; [exact Hp |]. rewrite <- Hp.
  apply packed_size_le; rewrite Uniforms_members; repeat constructor; assumption.
Qed.

Lemma Uniforms_size_at_least_packed_witness :
  packed_size (Uniforms Metal) = 144 /\
  144 <= struct_size apple_simd (Uniforms Metal).
Proof.
  apply (Uniforms_size_at_least_packed apple_simd Metal);
    first [reflexivity | discriminate].
Defined.

End UniformsFacts.

(* ================================================================== *)
(** ** The visible content follows the elaboration *)

Module VisibilityFacts.
Import Layout Cpp ShaderTypes Visibility Notions CppFacts InclusionFacts.

Lemma trace_IfNDef (m : string) (body : list item) (e : env) :
  trace (IfNDef m body) e = if defined m e then [] else trace_all body e.
Proof. reflexivity. Qed.

Lemma trace_IfDef (m : string) (body orelse : list item) (e : env) :
  trace (IfDef m body orelse) e =
  if defined m e then trace_all body e else trace_all orelse e.
Proof. reflexivity. Qed.

Lemma decls_of_app (a b : list visible) :
  decls_of (a ++ b) = decls_of a ++ decls_of b.
Proof. apply flat_map_app. Qed.

Lemma decls_of_VDecl (ds : list decl) : decls_of (map VDecl ds) = ds.
Proof. induction ds as [| d ds IH]; simpl; [| rewrite IH]; reflexivity. Qed.

(** What an item appends to the declarations is what its trace shows. *)
Lemma appended_decls (e e' : env) :
  extends e e' ->
  decls e' = decls e ++ skipn (List.length (decls e)) (decls e').
Proof.
  intros (_ & _ & [ds Hds]). rewrite Hds at 2.
  rewrite skipn_app, skipn_all, Nat.sub_diag. simpl. exact Hds.
Qed.

Lemma trace_all_decls_step (l : list item) :
  Forall (fun i => forall e e', exec i e = Some e' ->
                   decls e' = decls e ++ decls_of (trace i e)) l ->
  forall e e', exec_all l e = Some e' ->
  decls e' = decls e ++ decls_of (trace_all l e).
Proof.
  induction 1 as [| x xs Hx _ IH]; intros e e' H; simpl in *.
  - inversion H. now rewrite app_nil_r.
  - destruct (exec x e) as [e1 |] eqn:E; [| discriminate].
    rewrite decls_of_app, app_assoc, <- (Hx _ _ E). now apply IH.
Qed.

Lemma trace_decls (i : item) (e e' : env) :
  exec i e = Some e' -> decls e' = decls e ++ decls_of (trace i e).
Proof.
  revert e e'.
  induction i as [m body IH | m body orelse IHb IHo | | | | | | | | ]
    using item_nested_ind; intros e e' H;
    try (cbn [trace]; rewrite H, decls_of_VDecl;
         apply appended_decls; eapply exec_extends; exact H).
  - rewrite exec_IfNDef in H. rewrite trace_IfNDef. destruct (defined m e).
    + inversion H. now rewrite app_nil_r.
    + now apply trace_all_decls_step.
  - rewrite exec_IfDef in H. rewrite trace_IfDef. destruct (defined m e);
      now apply trace_all_decls_step.
  - inversion H. simpl. now rewrite app_nil_r.
  - apply provide_decls in H. rewrite H. simpl. now rewrite app_nil_r.
  - apply provide_decls in H. rewrite H. simpl. now rewrite app_nil_r.
Qed.

(** For every header and every starting environment, the declarations the
    visible content lists are the ones elaboration adds. *)
Lemma trace_all_decls (l : list item) (e e' : env) :
  exec_all l e = Some e' ->
  decls e' = decls e ++ decls_of (trace_all l e).
Proof.
  apply trace_all_decls_step. apply Forall_forall. intros i _ e1 e2.
  apply trace_decls.
Qed.

End VisibilityFacts.
